(** * CppMiddleware: the middleware chain of [cppmiddleware.hpp]

    A shallow embedding of the header: the [Request] and [Response]
    structs, the [MiddlewareChain] class with [use], [handle] and the
    private [execute], and the properties of the dispatch algorithm. *)

From stdpp Require Import base list strings gmap.
From Equations Require Import Equations.
From Stdlib Require Import ZArith Lia FunctionalExtensionality.

(** ** Basic request and response types *)

(** [struct Request]: [std::string] fields are strings, the
    [std::unordered_map<std::string, std::string>] is a finite map. *)
Record Request : Type := mkRequest {
  req_method : string;
  req_path : string;
  req_headers : gmap string string;
  req_body : string
}.

(** [struct Response]: [int status] is an integer. *)
Record Response : Type := mkResponse {
  res_status : Z;
  res_headers : gmap string string;
  res_body : string
}.

(** The value of a default-constructed [Request]: the member initialisers
    [method = "GET"], [path = "/"], and the default-constructed map and
    string. *)
Definition Request_default : Request :=
  {| req_method := "GET"%string; req_path := "/"%string;
     req_headers := ∅; req_body := EmptyString |}.

(** The value of a default-constructed [Response]: [status = 200]. *)
Definition Response_default : Response :=
  {| res_status := 200%Z; res_headers := ∅; res_body := EmptyString |}.

(** ** Middleware function types *)

Section Chain.

(** Whatever else the handler closures capture by reference. The chain
    never looks at it; it is threaded through because a
    [std::function] may read and write it. *)
Context {Ext : Type}.

(** The state one dispatch runs in: the [Request&] and [Response&] that
    [handle] and [execute] pass down, the observation log that handlers
    which record their own execution append to, and the rest of the
    captured state. *)
Record World : Type := mkWorld {
  req : Request;
  res : Response;
  log : list nat;
  ext : Ext
}.

(** [using Next = std::function<void()>]: a call that changes the state. *)
Definition Next : Type := World → World.

(** [using MiddlewareFunc = std::function<void(Request&, Response&, Next)>]. *)
Definition MiddlewareFunc : Type := Next → World → World.

(** ** MiddlewareChain class *)

(** The only data member is [std::vector<MiddlewareFunc> middleware_]. *)
Record MiddlewareChain : Type := mkChain {
  middleware_ : list MiddlewareFunc
}.

(** A chain as its constructor leaves it: an empty vector. *)
Definition MiddlewareChain_new : MiddlewareChain := {| middleware_ := [] |}.

(** [middleware_.size()]. *)
Definition size (c : MiddlewareChain) : nat := length (middleware_ c).

(** [middleware_[index]]: [operator[]] has a value only within bounds, so
    the read asks for the evidence that [index] is in range. *)
Definition at_index (c : MiddlewareChain) (index : nat)
    (Hlt : index < size c) : MiddlewareFunc :=
  match middleware_ c !! index as o return middleware_ c !! index = o → MiddlewareFunc with
  | Some f => λ _, f
  | None => λ Hnone,
      False_rect _ (Nat.lt_irrefl _
        (Nat.lt_le_trans _ _ _ Hlt (proj1 (lookup_ge_None _ _) Hnone)))
  end eq_refl.

(** [void use(const MiddlewareFunc& func)]: [push_back]. *)
Definition use (c : MiddlewareChain) (func : MiddlewareFunc) : MiddlewareChain :=
  {| middleware_ := middleware_ c ++ [func] |}.

(** [void execute(size_t index, Request& req, Response& res)].
    The guard [index >= middleware_.size()] returns at once; otherwise
    the closure [next] re-enters [execute] at [index + 1] and is handed
    to the handler stored at [index]. [size_t] is a natural number here:
    past the guard [index + 1] is at most the size of the vector, so it
    never wraps. The recursion is on [size c - index]. *)
Equations? execute (c : MiddlewareChain) (index : nat) (w : World) : World
  by wf (size c - index) lt :=
  execute c index w with le_lt_dec (size c) index := {
    | left _ => w
    | right Hlt =>
        let next : Next := λ w', execute c (S index) w' in
        at_index c index Hlt next w }.
Proof. lia. Qed.

(** [void handle(Request& req, Response& res)]. *)
Definition handle (c : MiddlewareChain) (w : World) : World :=
  execute c 0 w.

(** ** Shapes of handlers

    The handlers are the inputs of the chain. The predicates below name
    the ways a handler can use its continuation. *)

(** Code that leaves the observation log alone. *)
Definition keeps_log (f : World → World) : Prop :=
  ∀ w, log (f w) = log w.

(** [{ pre; next(); post; }]: the handler runs [pre], invokes its
    continuation once whatever the state is, and runs [post] on what the
    continuation left; [post] may also use what the handler saw on
    entry (its local variables). *)
Definition wraps (pre : World → World) (post : World → World → World)
    (h : MiddlewareFunc) : Prop :=
  ∀ (next : Next) w, h next w = post w (next (pre w)).

(** A handler that unconditionally invokes its continuation exactly once,
    and whose own code does not write the observation log. *)
Definition invokes_once (h : MiddlewareFunc) : Prop :=
  ∃ pre post, keeps_log pre ∧ (∀ w0, keeps_log (post w0)) ∧ wraps pre post h.

(** [{ stop; }]: a handler that never invokes its continuation. *)
Definition never_invokes (h : MiddlewareFunc) : Prop :=
  ∃ stop : World → World, keeps_log stop ∧ ∀ (next : Next) w, h next w = stop w.

(** [{ first; next(); a1; next(); a2; ... }]: the state after the handler
    has run [first] and then, for each element of [then_], invoked its
    continuation and run that element. *)
Definition interleave (first : World → World)
    (then_ : list (World → World → World)) (next : Next) (w : World) : World :=
  foldl (λ acc a, a w (next acc)) (first w) then_.

(** A handler that invokes its continuation once for each element of
    [then_], that is [length then_] times, and whose own code does not
    write the observation log. *)
Definition reinvokes (first : World → World)
    (then_ : list (World → World → World)) (h : MiddlewareFunc) : Prop :=
  keeps_log first ∧
  (∀ a w0, a ∈ then_ → keeps_log (a w0)) ∧
  ∀ (next : Next) w, h next w = interleave first then_ next w.

(** ** Observation

    The log of the testable properties: every handler is wrapped so
    that it appends its own index to the log when the chain calls it. *)

Definition record (i : nat) (w : World) : World :=
  {| req := req w; res := res w; log := log w ++ [i]; ext := ext w |}.

Definition observed (i : nat) (h : MiddlewareFunc) : MiddlewareFunc :=
  λ next w, h next (record i w).

Definition instrument (c : MiddlewareChain) : MiddlewareChain :=
  {| middleware_ := imap observed (middleware_ c) |}.

(** [appends f d]: running [f] adds exactly the entries [d] to the log. *)
Definition appends (f : Next) (d : list nat) : Prop :=
  ∀ w, log (f w) = log w ++ d.

(** The handlers composed from the front of a list: the first handler is
    given the composition of the rest as its continuation. *)
Fixpoint compose (ms : list MiddlewareFunc) : Next :=
  match ms with
  | [] => λ w, w
  | h :: rest => h (compose rest)
  end.

(** ** Two dispatches in a row *)

(** Two worlds that hold the same [Request] and [Response] and whose logs
    have grown by the same entries since [l] and [l']. *)
Definition sim (l l' : list nat) (w w' : World) : Prop :=
  req w = req w' ∧ res w = res w' ∧
  ∃ d, log w = l ++ d ∧ log w' = l' ++ d.

(** Two handlers that take related continuations and related states to
    related states. *)
Definition related (R : World → World → Prop) (h h' : MiddlewareFunc) : Prop :=
  ∀ n n' : Next,
    (∀ a b, R a b → R (n a) (n' b)) →
    ∀ a b, R a b → R (h n a) (h' n' b).

(** A handler whose effect on the [Request], the [Response] and the growth
    of the log depends on nothing but the [Request], the [Response] and
    its continuation: it keeps no memory of earlier dispatches. *)
Definition oblivious (h : MiddlewareFunc) : Prop :=
  ∀ l l', related (sim l l') h h.

(** Two worlds that differ at most in the observation log. *)
Definition same_but_log (w w' : World) : Prop :=
  req w = req w' ∧ res w = res w' ∧ ext w = ext w'.

(** A handler that does not read the observation log. *)
Definition log_blind (h : MiddlewareFunc) : Prop :=
  related same_but_log h h.

(** A dispatch on the pair [(rq1, rs1)] followed by a dispatch of the same
    chain on the pair [(rq2, rs2)]; the second starts from the log
    and the captured state the first one left. [repeatable c] says that
    the second dispatch ends with the [Request], the [Response] and the
    handler sequence (the growth of the log) of the same dispatch run
    without the first one. *)
Definition repeatable (c : MiddlewareChain) : Prop :=
  ∀ rq1 rs1 rq2 rs2 l e,
    let first := handle (instrument c) (mkWorld rq1 rs1 l e) in
    let second :=
      handle (instrument c) (mkWorld rq2 rs2 (log first) (ext first)) in
    let alone := handle (instrument c) (mkWorld rq2 rs2 l e) in
    req second = req alone ∧ res second = res alone ∧
    ∃ d, log second = log first ++ d ∧ log alone = l ++ d.

(** ** More shapes of handlers *)

(** [{ pre; next(); }]: the call of the continuation is the last thing
    the handler does. *)
Definition tail_calls (pre : World → World) (h : MiddlewareFunc) : Prop :=
  wraps pre (λ _ w, w) h.

(** [{ if (cond) { pre; next(); post; } else { stop; } }]: a handler that
    decides from the state whether it continues, and continues at most
    once; its own code does not write the observation log. *)
Definition invokes_at_most_once (h : MiddlewareFunc) : Prop :=
  ∃ (cond : World → bool) pre post stop,
    keeps_log pre ∧ (∀ w0, keeps_log (post w0)) ∧ keeps_log stop ∧
    ∀ (next : Next) w,
      h next w = if cond w then post w (next (pre w)) else stop w.

(** A handler that keeps [I] whenever its continuation does. *)
Definition preserves (I : World → Prop) (h : MiddlewareFunc) : Prop :=
  ∀ n : Next, (∀ w, I w → I (n w)) → ∀ w, I w → I (h n w).

(** Registering the handlers of a list one after the other. *)
Definition use_all (c : MiddlewareChain) (hs : list MiddlewareFunc)
    : MiddlewareChain :=
  foldl use c hs.

(** ** One run of the observed chain

    What a handler does on the one state it is entered with. *)

(** Entered with [s], the handler invokes its continuation once, on [s'],
    and then runs [post] on what the continuation left; its own code does
    not write the observation log. *)
Definition invokes_once_at (h : MiddlewareFunc) (s s' : World)
    (post : World → World) : Prop :=
  log s' = log s ∧ keeps_log post ∧ ∀ next : Next, h next s = post (next s').

(** Entered with [s], the handler does not invoke its continuation: it
    ends in a state [r] whatever the continuation is. *)
Definition declines_at (h : MiddlewareFunc) (s : World) : Prop :=
  ∃ r, log r = log s ∧ ∀ next : Next, h next s = r.

(** [stops_at c k i s]: in the run that enters the cursor [i] with the
    state [s], the handlers at [i, ..., k-1] each invoke their continuation
    once and the handler at [k] does not invoke its continuation. Each
    handler is constrained only on the state it is entered with in this
    run (the state the chain passes, with the handler's index recorded);
    on other states it may do anything. *)
Inductive stops_at (c : MiddlewareChain) (k : nat) : nat → World → Prop :=
| stops_here h s :
    middleware_ c !! k = Some h →
    declines_at h (record k s) →
    stops_at c k k s
| stops_later i h s s' post :
    i < k →
    middleware_ c !! i = Some h →
    invokes_once_at h (record i s) s' post →
    stops_at c k (S i) s' →
    stops_at c k i s.

(** ** Calls that may not return

    To state that a dispatch returns, a call is given a result only if it
    returns: [None] is a call that has not returned. *)

(** [Next], for a call that may not return. *)
Definition PNext : Type := World → option World.

(** [MiddlewareFunc], for a handler that may not return. *)
Definition PMiddlewareFunc : Type := PNext → World → option World.

(** [execute] with a bound on the depth of the nested calls of [execute]:
    every call of [execute] uses one unit of [fuel], and a call that finds
    none left has not returned. The body is the one of [execute]: the
    guard, the closure [next] that re-enters at [index + 1], the call of
    the handler stored at [index]. Past the guard the read [ms !! index]
    always finds a handler; its other branch is never taken. *)
Fixpoint execute_fuel (fuel : nat) (ms : list PMiddlewareFunc)
    (index : nat) (w : World) : option World :=
  match fuel with
  | 0 => None
  | S fuel' =>
      if le_lt_dec (length ms) index then Some w
      else
        let next : PNext := λ w', execute_fuel fuel' ms (S index) w' in
        match ms !! index with
        | Some h => h next w
        | None => None
        end
  end.

(** [handle] with the same bound. *)
Definition handle_fuel (fuel : nat) (ms : list PMiddlewareFunc) (w : World)
    : option World :=
  execute_fuel fuel ms 0 w.

(** A handler that returns provided every call of its continuation
    returns: its own code terminates, and it invokes its continuation a
    finite number of times. *)
Definition returns_with_next (h : PMiddlewareFunc) : Prop :=
  ∀ next : PNext, (∀ w, is_Some (next w)) → ∀ w, is_Some (h next w).

(** The handler [ph], which may not return, does what the handler [h]
    does. *)
Definition models (ph : PMiddlewareFunc) (h : MiddlewareFunc) : Prop :=
  ∀ (pnext : PNext) (next : Next),
    (∀ w, pnext w = Some (next w)) → ∀ w, ph pnext w = Some (h next w).

End Chain.

(** ** Handlers and chains to run the model on *)

Section Handlers.

Context {Ext : Type}.

Definition set_status (s : Z) (w : @World Ext) : World :=
  {| req := req w;
     res := {| res_status := s; res_headers := res_headers (res w);
               res_body := res_body (res w) |};
     log := log w; ext := ext w |}.

Definition set_header (name value : string) (w : @World Ext) : World :=
  {| req := req w;
     res := {| res_status := res_status (res w);
               res_headers := <[name := value]> (res_headers (res w));
               res_body := res_body (res w) |};
     log := log w; ext := ext w |}.

Definition set_body (b : string) (w : @World Ext) : World :=
  {| req := req w;
     res := {| res_status := res_status (res w);
               res_headers := res_headers (res w); res_body := b |};
     log := log w; ext := ext w |}.

(** [[](Request&, Response& res, Next next) { res.status = s; next(); }] *)
Definition status_handler (s : Z) : @MiddlewareFunc Ext :=
  λ next w, next (set_status s w).

(** [{ res.headers[name] = value; next(); }] *)
Definition header_handler (name value : string) : @MiddlewareFunc Ext :=
  λ next w, next (set_header name value w).

(** [{ next(); }] *)
Definition pass_handler : @MiddlewareFunc Ext :=
  λ next w, next w.

(** [{ res.status = s; }]: never continues. *)
Definition reject_handler (s : Z) : @MiddlewareFunc Ext :=
  λ next w, set_status s w.

(** [{ if (req.headers.count("Auth")) next(); }]: rejects a request
    without the header by not continuing. *)
Definition auth_check : @MiddlewareFunc Ext :=
  λ next w,
    match req_headers (req w) !! "Auth"%string with
    | Some _ => next w
    | None => w
    end.

(** [{ res.headers["A"] = "1"; next();
       res.body = res.status == 404 ? "missing" : "found"; }]:
    the code after the call reads what the handlers behind it wrote. *)
Definition report_after (w0 w : @World Ext) : World :=
  set_body (if Z.eqb (res_status (res w)) 404 then "missing" else "found")%string w.

Definition report_handler : @MiddlewareFunc Ext :=
  λ next w, report_after w (next (set_header "A" "1" w)).

(** [{ next(); next(); }] *)
Definition twice_handler : @MiddlewareFunc Ext :=
  λ next w, next (next w).

(** [status_handler], [twice_handler] and [auth_check] as handlers
    that may not return, and a handler that never returns. *)
Definition status_phandler (s : Z) : @PMiddlewareFunc Ext :=
  λ next w, next (set_status s w).

Definition twice_phandler : @PMiddlewareFunc Ext :=
  λ next w,
    match next w with
    | Some w' => next w'
    | None => None
    end.

Definition auth_pcheck : @PMiddlewareFunc Ext :=
  λ next w,
    match req_headers (req w) !! "Auth"%string with
    | Some _ => next w
    | None => Some w
    end.

(** [{ for (;;) { } }]: a handler that never returns. *)
Definition spin_phandler : @PMiddlewareFunc Ext :=
  λ next w, None.

End Handlers.

(** [{ if (!seen) { seen = true; next(); } }] with [bool seen] captured by
    reference: the handler continues on the first dispatch only. *)
Definition latch_handler : @MiddlewareFunc bool :=
  λ next w,
    if ext w then w
    else next {| req := req w; res := res w; log := log w; ext := true |}.

Definition fresh (e : bool) : @World bool :=
  {| req := Request_default; res := Response_default; log := []; ext := e |}.

Definition fresh_world : @World unit :=
  {| req := Request_default; res := Response_default; log := []; ext := tt |}.

(** The chains are built the way a caller builds them: [use] after [use]
    on a new chain. *)
Definition chain_three : @MiddlewareChain unit :=
  use (use (use MiddlewareChain_new (header_handler "X" "1"))
           (status_handler 404)) pass_handler.

Definition chain_rejecting : @MiddlewareChain unit :=
  use (use (use MiddlewareChain_new (header_handler "X" "1"))
           (reject_handler 401)) (status_handler 404).

Definition chain_auth : @MiddlewareChain unit :=
  use (use MiddlewareChain_new auth_check) (status_handler 200).

(** A request that carries the header [Auth]. *)
Definition authorized_world : @World unit :=
  {| req := {| req_method := "GET"%string; req_path := "/"%string;
               req_headers := {[ "Auth"%string := "token"%string ]};
               req_body := EmptyString |};
     res := Response_default; log := []; ext := tt |}.

Definition pchain_three : list (@PMiddlewareFunc unit) :=
  [twice_phandler; auth_pcheck; status_phandler 404].

Definition chain_guarded : @MiddlewareChain unit :=
  use (use (use MiddlewareChain_new (header_handler "X" "1")) auth_check)
      (status_handler 404).

Definition chain_report : @MiddlewareChain unit :=
  use (use MiddlewareChain_new report_handler) (status_handler 404).

Definition chain_twice : @MiddlewareChain unit :=
  use (use (use MiddlewareChain_new twice_handler) pass_handler)
      (status_handler 404).

Definition chain_latch : @MiddlewareChain bool :=
  use (use MiddlewareChain_new latch_handler) (status_handler 404).

Definition chain_doubling : @MiddlewareChain unit :=
  use_all MiddlewareChain_new [twice_handler; twice_handler; twice_handler].

Definition chain_two : @MiddlewareChain unit :=
  use (use MiddlewareChain_new (header_handler "X" "1")) (status_handler 404).

(** * Properties *)

Section Facts.

Context {Ext : Type}.
Implicit Types (c : @MiddlewareChain Ext) (h : @MiddlewareFunc Ext).
Implicit Types (w : @World Ext) (index i j k : nat).

(** ** Unfolding [execute] *)

Lemma at_index_lookup c index (Hlt : index < size c) :
  middleware_ c !! index = Some (at_index c index Hlt).
Proof.
  unfold at_index.
  generalize (@eq_refl _ (middleware_ c !! index)).
  generalize (middleware_ c !! index) at 2 4.
  intros [f|] Hf; [exact Hf|].
  exfalso. apply lookup_ge_None in Hf. unfold size in Hlt. lia.
Qed.

Lemma execute_done c index w :
  size c ≤ index → execute c index w = w.
Proof.
  intros Hle. rewrite execute_equation_1.
  destruct (le_lt_dec (size c) index) as [Hle'|Hlt]; [reflexivity|lia].
Qed.

Lemma execute_step c index h w :
  middleware_ c !! index = Some h →
  execute c index w = h (execute c (S index)) w.
Proof.
  intros Hh. rewrite execute_equation_1.
  destruct (le_lt_dec (size c) index) as [Hle|Hlt]; simpl.
  - apply lookup_lt_Some in Hh. unfold size in Hle. lia.
  - pose proof (at_index_lookup c index Hlt) as Hat.
    rewrite Hh in Hat. injection Hat as <-. reflexivity.
Qed.

Lemma lookup_in_range c index :
  index < size c → ∃ h, middleware_ c !! index = Some h.
Proof. intros Hlt. exists (at_index c index Hlt). apply at_index_lookup. Qed.

(** ** The instrumented chain *)

Lemma size_instrument c : size (instrument c) = size c.
Proof. unfold size, instrument; simpl. apply length_imap. Qed.

Lemma instrument_lookup c i h :
  middleware_ c !! i = Some h →
  middleware_ (instrument c) !! i = Some (observed i h).
Proof.
  intros Hh. unfold instrument; simpl.
  rewrite list_lookup_imap, Hh. reflexivity.
Qed.

Lemma execute_observed c i h w :
  middleware_ c !! i = Some h →
  execute (instrument c) i w = h (execute (instrument c) (S i)) (record i w).
Proof.
  intros Hh. rewrite (execute_step _ _ _ _ (instrument_lookup _ _ _ Hh)).
  reflexivity.
Qed.

Lemma seq_step k n : k < n → seq k (n - k) = k :: seq (S k) (n - S k).
Proof.
  intros Hlt. replace (n - k) with (S (n - S k)) by lia. reflexivity.
Qed.

(** From any index on, a run of handlers that each invoke their
    continuation once records every remaining index, in order. *)
Lemma passing_suffix_appends c k :
  (∀ j h, k ≤ j → middleware_ c !! j = Some h → invokes_once h) →
  appends (execute (instrument c) k) (seq k (size c - k)).
Proof.
  remember (size c - k) as n eqn:Hn.
  revert k Hn. induction n as [|n IH]; intros k Hn Hpass w.
  - rewrite execute_done by (rewrite size_instrument; lia).
    simpl. rewrite app_nil_r. reflexivity.
  - assert (Hlt : k < size c) by lia.
    destruct (lookup_in_range c k Hlt) as [h Hh].
    destruct (Hpass k h (Nat.le_refl _) Hh) as (pre & post & Hpre & Hpost & Hw).
    rewrite (execute_observed _ _ _ _ Hh), Hw, Hpost.
    rewrite (IH (S k)); [|lia|intros j h' Hj; apply Hpass; lia].
    rewrite Hpre. simpl. rewrite <- app_assoc. simpl.
    replace (size c - S k) with n by lia. reflexivity.
Qed.

(** A run that stops at [k] records the indices from the cursor up to
    [k] and nothing else, whatever is registered behind [k]. *)
Lemma stops_at_appends c k i s :
  stops_at c k i s →
  i ≤ k ∧ log (execute (instrument c) i s) = log s ++ seq i (S k - i).
Proof.
  induction 1 as [h s Hk (r & Hr & Hdecl)
                 |i h s s' post Hik Hh (Hs' & Hpost & Hshape) _ [_ IH]].
  - split; [lia|].
    rewrite (execute_observed _ _ _ _ Hk), Hdecl, Hr.
    replace (S k - k) with 1 by lia. reflexivity.
  - split; [lia|].
    rewrite (execute_observed _ _ _ _ Hh), Hshape, Hpost, IH, Hs'.
    simpl. rewrite <- app_assoc. simpl.
    replace (S k - i) with (S (k - i)) by lia.
    replace (k - i) with (S k - S i) by lia. reflexivity.
Qed.

(** Handlers that behave the same on every state behave so on the states
    of any run. *)
Lemma stops_at_of_shapes c k hk :
  middleware_ c !! k = Some hk →
  never_invokes hk →
  (∀ j h, j < k → middleware_ c !! j = Some h → invokes_once h) →
  ∀ i s, i ≤ k → stops_at c k i s.
Proof.
  intros Hk (stop & Hstop & Hhk) Hpass i s Hik.
  remember (k - i) as n eqn:Hn.
  revert i s Hik Hn. induction n as [|n IH]; intros i s Hik Hn.
  - assert (i = k) as -> by lia.
    apply (stops_here c k hk s Hk).
    exists (stop (record k s)). split; [apply Hstop|]. intros next. apply Hhk.
  - assert (Hlt : i < size c).
    { apply lookup_lt_Some in Hk. unfold size. lia. }
    destruct (lookup_in_range c i Hlt) as [h Hh].
    destruct (Hpass i h ltac:(lia) Hh) as (pre & post & Hpre & Hpost & Hw).
    apply (stops_later c k i h s (pre (record i s)) (post (record i s)));
      [lia|exact Hh| |apply IH; lia].
    split; [apply Hpre|]. split; [apply Hpost|]. intros next. apply Hw.
Qed.

(** The log after a handler has invoked a continuation that appends [d]
    once for each element of [then_]. *)
Lemma interleave_appends (next : @Next Ext) d first then_ w :
  appends next d →
  keeps_log first →
  (∀ a w0, a ∈ then_ → keeps_log (a w0)) →
  log (interleave first then_ next w)
  = log w ++ concat (replicate (length then_) d).
Proof.
  intros Hnext Hfirst Hthen. unfold interleave.
  rewrite <- (Hfirst w). generalize (first w) as acc.
  induction then_ as [|a then_ IH]; intros acc; simpl.
  - rewrite app_nil_r. reflexivity.
  - rewrite IH by (intros a' w0 Ha'; apply Hthen; right; exact Ha').
    rewrite (Hthen a w) by left. rewrite Hnext, <- app_assoc. reflexivity.
Qed.

(** ** [execute] and the handlers behind the cursor *)

(** Running from [index] is running the handlers stored from [index] on,
    each with the rest as its continuation. *)
Lemma execute_compose c index :
  execute c index = compose (drop index (middleware_ c)).
Proof.
  remember (size c - index) as n eqn:Hn.
  revert index Hn. induction n as [|n IH]; intros index Hn.
  - rewrite drop_ge by (unfold size in Hn; lia).
    extensionality w. apply execute_done. lia.
  - destruct (lookup_in_range c index ltac:(lia)) as [h Hh].
    rewrite (drop_S _ _ _ Hh). simpl.
    rewrite <- (IH (S index)) by lia.
    extensionality w. apply execute_step, Hh.
Qed.

(** ** Handlers that keep no memory *)

Lemma record_sim l l' i w w' :
  sim l l' w w' → sim l l' (record i w) (record i w').
Proof.
  intros (Hreq & Hres & d & Hd & Hd').
  split; [exact Hreq|]. split; [exact Hres|].
  exists (d ++ [i]). simpl. rewrite Hd, Hd', !app_assoc. split; reflexivity.
Qed.

Lemma observed_oblivious i h : oblivious h → oblivious (observed i h).
Proof.
  intros Hh l l' n n' Hn a b Hab. unfold observed.
  apply Hh; [exact Hn|]. apply record_sim, Hab.
Qed.

(** Two chains of the same length whose handlers are related index by
    index take related states to related states, from every cursor. *)
Lemma execute_related (R : @World Ext → @World Ext → Prop) c c' :
  size c = size c' →
  (∀ i h h', middleware_ c !! i = Some h → middleware_ c' !! i = Some h' →
             related R h h') →
  ∀ index a b, R a b → R (execute c index a) (execute c' index b).
Proof.
  intros Hsize Hrel index.
  remember (size c - index) as n eqn:Hn.
  revert index Hn. induction n as [|n IH]; intros index Hn a b Hab.
  - rewrite !execute_done by lia. exact Hab.
  - destruct (lookup_in_range c index ltac:(lia)) as [h Hh].
    destruct (lookup_in_range c' index ltac:(lia)) as [h' Hh'].
    rewrite (execute_step _ _ _ _ Hh), (execute_step _ _ _ _ Hh').
    apply (Hrel index h h' Hh Hh'); [|exact Hab].
    apply IH. lia.
Qed.

Lemma execute_sim c l l' index :
  (∀ h, h ∈ middleware_ c → oblivious h) →
  ∀ a b, sim l l' a b → sim l l' (execute c index a) (execute c index b).
Proof.
  intros Hobl. apply execute_related; [reflexivity|].
  intros i h h' Hh Hh'. rewrite Hh in Hh'. injection Hh' as <-.
  apply Hobl. eapply list_elem_of_lookup_2, Hh.
Qed.

Lemma instrument_oblivious c :
  (∀ h, h ∈ middleware_ c → oblivious h) →
  ∀ h, h ∈ middleware_ (instrument c) → oblivious h.
Proof.
  intros Hobl h Hin. apply list_elem_of_lookup_1 in Hin as [i Hi].
  unfold instrument in Hi; simpl in Hi.
  rewrite list_lookup_imap in Hi.
  destruct (middleware_ c !! i) as [h0|] eqn:Hh0; [|discriminate].
  injection Hi as <-. apply observed_oblivious, Hobl.
  eapply list_elem_of_lookup_2, Hh0.
Qed.

(** ** Observation does not disturb the dispatch *)

(** For handlers that do not read the log, the instrumented chain does to
    the [Request], the [Response] and the captured state what the chain
    itself does. *)
Lemma instrument_erasure c :
  (∀ h, h ∈ middleware_ c → log_blind h) →
  ∀ index a b,
    same_but_log a b →
    same_but_log (execute (instrument c) index a) (execute c index b).
Proof.
  intros Hblind. apply execute_related; [apply size_instrument|].
  intros i h h' Hh Hh'.
  unfold instrument in Hh; simpl in Hh. rewrite list_lookup_imap, Hh' in Hh.
  injection Hh as <-.
  intros n n' Hn a b Hab. unfold observed.
  apply (Hblind h'); [eapply list_elem_of_lookup_2, Hh'|exact Hn|].
  destruct Hab as (Hreq & Hres & Hext). repeat split; assumption.
Qed.

(** ** Short-circuit: what is registered behind the cursor does not matter *)

Lemma stops_at_prefix c c' k i s :
  stops_at c k i s →
  take (S k) (middleware_ c') = take (S k) (middleware_ c) →
  execute (instrument c') i s = execute (instrument c) i s.
Proof.
  intros Hrun Htake.
  assert (Hsame : ∀ j, j ≤ k → middleware_ c' !! j = middleware_ c !! j).
  { intros j Hj.
    rewrite <- (lookup_take_lt (middleware_ c') (S k) j) by lia.
    rewrite <- (lookup_take_lt (middleware_ c) (S k) j) by lia.
    rewrite Htake. reflexivity. }
  induction Hrun as [h s Hk (r & _ & Hdecl)
                    |i h s s' post Hik Hh (_ & _ & Hshape) _ IH].
  - assert (Hk' : middleware_ c' !! k = Some h) by (rewrite Hsame; auto).
    rewrite (execute_observed _ _ _ _ Hk), (execute_observed _ _ _ _ Hk').
    rewrite !Hdecl. reflexivity.
  - assert (Hh' : middleware_ c' !! i = Some h) by (rewrite Hsame; [auto|lia]).
    rewrite (execute_observed _ _ _ _ Hh), (execute_observed _ _ _ _ Hh').
    rewrite !Hshape, IH. reflexivity.
Qed.

(** ** The claims about dispatch *)

(** C1. In a chain whose handlers each unconditionally invoke their
    continuation exactly once, a dispatch calls every handler exactly
    once, in the order of registration: the observation log grows by the
    indices [0, 1, ..., N-1], in this order and with no repetition. *)
Theorem handle_runs_all_in_order c :
  (∀ i h, middleware_ c !! i = Some h → invokes_once h) →
  ∀ w, log (handle (instrument c) w) = log w ++ seq 0 (size c).
Proof.
  intros Hpass w. unfold handle.
  rewrite (passing_suffix_appends c 0) by (intros j h _; apply Hpass).
  rewrite Nat.sub_0_r. reflexivity.
Qed.

(** C2. If in a dispatch the handlers [0, ..., k-1] each invoke their
    continuation once and the handler at index [k] does not invoke its
    continuation, the dispatch calls exactly the handlers [0..k], in order:
    the log grows by [0, 1, ..., k] and by nothing else. The handlers
    behind [k] are never called: a chain that differs only behind [k] ends
    in the same state. The handlers are constrained on the states of this
    dispatch only; a handler that would continue on another request is
    covered. *)
Theorem handle_short_circuit c k w :
  stops_at c k 0 w →
  log (handle (instrument c) w) = log w ++ seq 0 (S k) ∧
  ∀ c', take (S k) (middleware_ c') = take (S k) (middleware_ c) →
        handle (instrument c') w = handle (instrument c) w.
Proof.
  intros Hrun. split.
  - unfold handle. destruct (stops_at_appends c k 0 w Hrun) as [_ ->].
    rewrite Nat.sub_0_r. reflexivity.
  - intros c' Htake. unfold handle. apply (stops_at_prefix c c' k 0 w Hrun Htake).
Qed.

(** C3. The continuation handed to the handler at [k] is a synchronous
    call that runs the whole remainder of the chain and returns the state
    it leaves. For a handler [{ pre; next(); post; }] the code after the
    call, [post], therefore runs on the [Request] and [Response] exactly
    as the handlers registered behind [k] left them: on the result of
    dispatching the chain of those handlers from the state [pre] left. *)
Theorem continuation_wraps_downstream c k h pre post :
  middleware_ c !! k = Some h →
  wraps pre post h →
  ∀ w,
    execute c k w = post w (execute c (S k) (pre w)) ∧
    execute c (S k) (pre w)
    = handle {| middleware_ := drop (S k) (middleware_ c) |} (pre w).
Proof.
  intros Hh Hw w. split.
  - rewrite (execute_step _ _ _ _ Hh). apply Hw.
  - unfold handle. rewrite !execute_compose. simpl.
    rewrite drop_0. reflexivity.
Qed.

(** C4. A dispatch on a chain with no registered handler returns the
    state it was given: the [Request] and the [Response] (and everything
    else) are unchanged. *)
Theorem handle_empty_chain c w :
  size c = 0 →
  handle c w = w ∧ req (handle c w) = req w ∧ res (handle c w) = res w.
Proof.
  intros Hsize. unfold handle.
  rewrite execute_done by lia. repeat split.
Qed.

(** C5. [use] is total; it appends the handler at the end, so the length
    grows by exactly one, the new handler sits at the old length, and
    every entry registered before is unchanged at its position. *)
Theorem use_appends c func :
  middleware_ (use c func) = middleware_ c ++ [func] ∧
  size (use c func) = S (size c) ∧
  middleware_ (use c func) !! size c = Some func ∧
  take (size c) (middleware_ (use c func)) = middleware_ c ∧
  ∀ i, i < size c → middleware_ (use c func) !! i = middleware_ c !! i.
Proof.
  unfold use, size; simpl. split; [reflexivity|]. split.
  - rewrite length_app. simpl. lia.
  - split.
    + rewrite lookup_app_r by lia. rewrite Nat.sub_diag. reflexivity.
    + split.
      * rewrite take_app_length. reflexivity.
      * intros i Hi. apply lookup_app_l. exact Hi.
Qed.

(** C6. A handler at index [k] that invokes its continuation [m] times
    (here [m = length then_]) runs the remainder of the chain [m] times,
    every time from the same cursor [k + 1] and over the same handlers,
    those registered behind [k]. When these each invoke their
    continuation once, the log shows [k] followed by [m] copies of
    [k+1, ..., N-1]. *)
Theorem continuation_reinvoked c k h first then_ :
  middleware_ c !! k = Some h →
  reinvokes first then_ h →
  (∀ w, execute c k w
        = interleave first then_ (execute c (S k)) w) ∧
  execute c (S k) = compose (drop (S k) (middleware_ c)) ∧
  ((∀ j hj, k < j → middleware_ c !! j = Some hj → invokes_once hj) →
   ∀ w, log (execute (instrument c) k w)
        = log w ++ k :: concat (replicate (length then_)
                                          (seq (S k) (size c - S k)))).
Proof.
  intros Hh (Hfirst & Hthen & Hshape). split; [|split].
  - intros w. rewrite (execute_step _ _ _ _ Hh). apply Hshape.
  - apply execute_compose.
  - intros Hpass w.
    rewrite (execute_observed _ _ _ _ Hh), Hshape.
    rewrite (interleave_appends _ (seq (S k) (size c - S k)));
      [|apply passing_suffix_appends; intros j hj Hj; apply Hpass; lia
       |exact Hfirst|exact Hthen].
    simpl. rewrite <- app_assoc. reflexivity.
Qed.

(** C7. A chain can be dispatched again and again. Every dispatch starts
    its cursor at index 0 and runs the registered handlers from the
    front; the chain itself carries nothing from one dispatch to the
    next (it is not changed by [handle]). So when no handler keeps a
    memory of its own, a dispatch on a fresh pair that follows another
    dispatch ends with the [Request], the [Response] and the handler
    sequence of the same dispatch run without the first one. *)
Theorem dispatch_repeatable c :
  (∀ w, handle c w = execute c 0 w) ∧
  handle c = compose (middleware_ c) ∧
  ((∀ h, h ∈ middleware_ c → oblivious h) → repeatable c).
Proof.
  split; [reflexivity|]. split.
  - unfold handle. rewrite execute_compose, drop_0.
    reflexivity.
  - intros Hobl rq1 rs1 rq2 rs2 l e first second alone.
    assert (Hsim : sim (log first) l second alone).
    { apply execute_sim; [apply instrument_oblivious, Hobl|].
      split; [reflexivity|]. split; [reflexivity|].
      exists []. simpl. rewrite !app_nil_r. split; reflexivity. }
    exact Hsim.
Qed.

(** C9. [execute] never reads [middleware_] out of range. At an index
    that fails the guard nothing is read and the state is returned as it
    is; at an index that passes it the vector has a handler there, and
    that handler is what runs. The continuation handed to the last
    registered handler fails the guard and changes nothing. *)
Theorem execute_in_bounds c index w :
  (size c ≤ index ∧ execute c index w = w) ∨
  (index < size c ∧
   ∃ h, middleware_ c !! index = Some h ∧
        execute c index w = h (execute c (S index)) w ∧
        (S index = size c → ∀ w', execute c (S index) w' = w')).
Proof.
  destruct (le_lt_dec (size c) index) as [Hle|Hlt].
  - left. split; [exact Hle|]. apply execute_done, Hle.
  - right. split; [exact Hlt|].
    exists (at_index c index Hlt). split; [apply at_index_lookup|].
    split.
    + apply execute_step, at_index_lookup.
    + intros Hlast w'. apply execute_done. lia.
Qed.

(** ** Dispatch returns *)

(** More fuel than [length ms - index] is as good as any other such
    amount: the calls nest no deeper. *)
Lemma execute_fuel_enough (ms : list (@PMiddlewareFunc Ext)) fuel :
  ∀ fuel' index w,
    length ms - index < fuel → length ms - index < fuel' →
    execute_fuel fuel ms index w = execute_fuel fuel' ms index w.
Proof.
  induction fuel as [|fuel IH]; intros fuel' index w Hf Hf'; [lia|].
  destruct fuel' as [|fuel']; [lia|]. simpl.
  destruct (le_lt_dec (length ms) index) as [Hle|Hlt]; [reflexivity|].
  destruct (ms !! index) as [ph|]; [|reflexivity].
  f_equal. extensionality w'. apply IH; lia.
Qed.

Lemma execute_fuel_returns (ms : list (@PMiddlewareFunc Ext)) :
  (∀ ph, ph ∈ ms → returns_with_next ph) →
  ∀ fuel index w,
    length ms - index < fuel → is_Some (execute_fuel fuel ms index w).
Proof.
  intros Hall fuel.
  induction fuel as [|fuel IH]; intros index w Hf; [lia|]. simpl.
  destruct (le_lt_dec (length ms) index) as [Hle|Hlt]; [eexists; reflexivity|].
  destruct (ms !! index) as [ph|] eqn:Hph;
    [|apply lookup_ge_None in Hph;
     exact (False_ind _ (Nat.lt_irrefl _ (Nat.lt_le_trans _ _ _ Hlt Hph)))].
  apply (Hall ph); [eapply list_elem_of_lookup_2, Hph|].
  intros w'. apply IH. lia.
Qed.

(** With handlers that do what the handlers of a chain do, the run with
    enough fuel returns what [execute] returns. *)
Lemma execute_fuel_models c (ms : list (@PMiddlewareFunc Ext)) :
  Forall2 models ms (middleware_ c) →
  ∀ fuel index w,
    size c - index < fuel →
    execute_fuel fuel ms index w = Some (execute c index w).
Proof.
  intros Hall.
  assert (Hlen : length ms = size c) by (apply (Forall2_length _ _ _ Hall)).
  intros fuel. induction fuel as [|fuel IH]; intros index w Hf; [lia|]. simpl.
  destruct (le_lt_dec (length ms) index) as [Hle|Hlt].
  - rewrite execute_done by lia. reflexivity.
  - destruct (ms !! index) as [ph|] eqn:Hph;
      [|apply lookup_ge_None in Hph;
     exact (False_ind _ (Nat.lt_irrefl _ (Nat.lt_le_trans _ _ _ Hlt Hph)))].
    destruct (lookup_in_range c index ltac:(lia)) as [h Hh].
    rewrite (execute_step _ _ _ _ Hh).
    apply (Forall2_lookup_lr _ _ _ _ _ _ Hall Hph Hh).
    intros w'. apply IH. lia.
Qed.

(** C10. Dispatch terminates. For every chain whose handlers return
    whenever the calls of their continuation return (their own code
    terminates and they invoke the continuation finitely often), [execute]
    returns from every cursor and [handle] returns: the continuation calls
    [execute] at [index + 1] only, so the calls of [execute] nest at most
    [length ms - index + 1] deep, and any fuel above [length ms - index]
    gives the same result. *)
Theorem dispatch_terminates (ms : list (@PMiddlewareFunc Ext)) :
  (∀ ph, ph ∈ ms → returns_with_next ph) →
  (∀ index w, ∃ w', ∀ fuel, length ms - index < fuel →
                            execute_fuel fuel ms index w = Some w') ∧
  (∀ w, ∃ w', ∀ fuel, length ms < fuel → handle_fuel fuel ms w = Some w').
Proof.
  intros Hall.
  assert (Hrun : ∀ index w, ∃ w', ∀ fuel, length ms - index < fuel →
                                  execute_fuel fuel ms index w = Some w').
  { intros index w.
    destruct (execute_fuel_returns ms Hall (S (length ms - index)) index w
                ltac:(lia)) as [w' Hw'].
    exists w'. intros fuel Hf. rewrite <- Hw'.
    apply execute_fuel_enough; lia. }
  split; [exact Hrun|].
  intros w. destruct (Hrun 0 w) as [w' Hw'].
  exists w'. intros fuel Hf. apply Hw'. lia.
Qed.

(** ** The example handlers have the shapes they are used with *)

Lemma status_handler_once s : invokes_once (@status_handler Ext s).
Proof.
  exists (set_status s), (λ _ w, w).
  split; [intros w; reflexivity|]. split; [intros w0 w; reflexivity|].
  intros next w. reflexivity.
Qed.

Lemma header_handler_once name value :
  invokes_once (@header_handler Ext name value).
Proof.
  exists (set_header name value), (λ _ w, w).
  split; [intros w; reflexivity|]. split; [intros w0 w; reflexivity|].
  intros next w. reflexivity.
Qed.

Lemma pass_handler_once : invokes_once (@pass_handler Ext).
Proof.
  exists (λ w, w), (λ _ w, w).
  split; [intros w; reflexivity|]. split; [intros w0 w; reflexivity|].
  intros next w. reflexivity.
Qed.

Lemma reject_handler_never s : never_invokes (@reject_handler Ext s).
Proof.
  exists (set_status s). split; [intros w; reflexivity|].
  intros next w. reflexivity.
Qed.

Lemma report_handler_wraps :
  wraps (set_header "A" "1") report_after (@report_handler Ext).
Proof. intros next w. reflexivity. Qed.

Lemma twice_handler_reinvokes :
  reinvokes (λ w, w) [λ _ w, w; λ _ w, w] (@twice_handler Ext).
Proof.
  split; [intros w; reflexivity|]. split.
  - intros a w0 Ha w.
    apply elem_of_cons in Ha as [->|Ha]; [reflexivity|].
    apply elem_of_cons in Ha as [->|Ha]; [reflexivity|].
    apply elem_of_nil in Ha. contradiction.
  - intros next w. reflexivity.
Qed.

Lemma set_status_sim l l' s w w' :
  sim l l' w w' → sim l l' (set_status s w) (set_status s w').
Proof.
  intros (Hreq & Hres & Hlog). unfold set_status.
  split; [exact Hreq|]. split; [simpl; rewrite Hres; reflexivity|exact Hlog].
Qed.

Lemma set_header_sim l l' name value w w' :
  sim l l' w w' → sim l l' (set_header name value w) (set_header name value w').
Proof.
  intros (Hreq & Hres & Hlog). unfold set_header.
  split; [exact Hreq|]. split; [simpl; rewrite Hres; reflexivity|exact Hlog].
Qed.

Lemma status_handler_oblivious s : oblivious (@status_handler Ext s).
Proof. intros l l' n n' Hn a b Hab. apply Hn, set_status_sim, Hab. Qed.

Lemma header_handler_oblivious name value :
  oblivious (@header_handler Ext name value).
Proof. intros l l' n n' Hn a b Hab. apply Hn, set_header_sim, Hab. Qed.

Lemma pass_handler_oblivious : oblivious (@pass_handler Ext).
Proof. intros l l' n n' Hn a b Hab. apply Hn, Hab. Qed.

Lemma status_phandler_returns s : returns_with_next (@status_phandler Ext s).
Proof. intros next Hnext w. apply Hnext. Qed.

Lemma twice_phandler_returns : returns_with_next (@twice_phandler Ext).
Proof.
  intros next Hnext w. unfold twice_phandler.
  destruct (Hnext w) as [w' ->]. apply Hnext.
Qed.

Lemma auth_pcheck_returns : returns_with_next (@auth_pcheck Ext).
Proof.
  intros next Hnext w. unfold auth_pcheck.
  destruct (req_headers (req w) !! "Auth"%string);
    [apply Hnext|eexists; reflexivity].
Qed.

Lemma status_phandler_models s :
  models (@status_phandler Ext s) (status_handler s).
Proof. intros pnext next Hnext w. apply Hnext. Qed.

Lemma twice_phandler_models : models (@twice_phandler Ext) twice_handler.
Proof.
  intros pnext next Hnext w. unfold twice_phandler, twice_handler.
  rewrite Hnext. apply Hnext.
Qed.

(** A handler that does not return keeps the dispatch from returning,
    whatever the fuel. *)
Lemma spin_phandler_never_returns fuel (w : @World Ext) :
  handle_fuel fuel [spin_phandler] w = None.
Proof. destruct fuel as [|fuel]; reflexivity. Qed.

End Facts.

(** C8. A default-constructed [Request] has method GET and path [/]; a
    default-constructed [Response] has status 200, a success status; the
    headers and the body of both are empty. *)
Theorem default_request_response :
  req_method Request_default = "GET"%string ∧
  req_path Request_default = "/"%string ∧
  req_headers Request_default = ∅ ∧
  req_body Request_default = EmptyString ∧
  res_status Response_default = 200%Z ∧
  (200 ≤ res_status Response_default < 300)%Z ∧
  res_headers Response_default = ∅ ∧
  res_body Response_default = EmptyString.
Proof. simpl. repeat split; lia. Qed.

(** * Registration and dispatch together *)

Section Composition.

Context {Ext : Type}.
Implicit Types (c : @MiddlewareChain Ext) (h : @MiddlewareFunc Ext).
Implicit Types (w : @World Ext) (index i j k : nat).

Lemma handle_compose c : handle c = compose (middleware_ c).
Proof. unfold handle. rewrite execute_compose, drop_0. reflexivity. Qed.

Lemma use_all_middleware c (hs : list (@MiddlewareFunc Ext)) :
  middleware_ (use_all c hs) = middleware_ c ++ hs.
Proof.
  unfold use_all. revert c. induction hs as [|h hs IH]; intros c; simpl.
  - rewrite app_nil_r. reflexivity.
  - rewrite IH. simpl. rewrite <- app_assoc. reflexivity.
Qed.

(** X1. Registering a list of handlers one [use] after the other keeps
    their order: the vector is the old one followed by the list, its size
    grows by the length of the list, and a dispatch on a chain built this
    way from a new chain runs the first registered handler with the rest,
    in order, as its continuation. *)
Theorem use_all_keeps_order c (hs : list (@MiddlewareFunc Ext)) :
  middleware_ (use_all c hs) = middleware_ c ++ hs ∧
  size (use_all c hs) = size c + length hs ∧
  handle (use_all MiddlewareChain_new hs) = compose hs.
Proof.
  split; [apply use_all_middleware|]. split.
  - unfold size. rewrite use_all_middleware, length_app. reflexivity.
  - rewrite handle_compose, use_all_middleware. reflexivity.
Qed.

(** X2. In a chain whose handlers all have the form
    [{ pre; next(); post; }] the code before the calls runs in the order of
    registration and the code after the calls runs in the opposite order,
    once the last handler has returned. *)
Theorem handle_pre_forward_post_backward c
    (layers : list ((@World Ext → @World Ext) * (@World Ext → @World Ext))) :
  Forall2 (λ h l, wraps l.1 (λ _, l.2) h) (middleware_ c) layers →
  ∀ w, handle c w
       = foldr (λ l acc, l.2 acc) (foldl (λ acc l, l.1 acc) w layers) layers.
Proof.
  intros Hall w. rewrite handle_compose.
  revert w. induction Hall as [|h l ms ls Hh _ IH]; intros w; simpl.
  - reflexivity.
  - rewrite Hh, IH. reflexivity.
Qed.

(** The handlers that ran form a prefix of the registration order, from
    any cursor. *)
Lemma at_most_once_appends c k w :
  (∀ i h, middleware_ c !! i = Some h → invokes_at_most_once h) →
  ∃ j, k ≤ j ∧ j ≤ Nat.max k (size c) ∧
       log (execute (instrument c) k w) = log w ++ seq k (j - k).
Proof.
  intros Hall.
  remember (size c - k) as n eqn:Hn.
  revert k w Hn. induction n as [|n IH]; intros k w Hn.
  - exists k. split; [lia|]. split; [lia|].
    rewrite execute_done by (rewrite size_instrument; lia).
    rewrite Nat.sub_diag. simpl. rewrite app_nil_r. reflexivity.
  - destruct (lookup_in_range c k ltac:(lia)) as [h Hh].
    destruct (Hall k h Hh)
      as (cond & pre & post & stop & Hpre & Hpost & Hstop & Hshape).
    rewrite (execute_observed _ _ _ _ Hh), Hshape.
    destruct (cond (record k w)).
    + destruct (IH (S k) (pre (record k w)) ltac:(lia)) as (j & Hj1 & Hj2 & Hlog).
      exists j. split; [lia|]. split; [lia|].
      rewrite Hpost, Hlog, Hpre. simpl. rewrite <- app_assoc. simpl.
      replace (j - k) with (S (j - S k)) by lia. reflexivity.
    + exists (S k). split; [lia|]. split; [lia|].
      rewrite Hstop. simpl. replace (S k - k) with 1 by lia. reflexivity.
Qed.

(** X3. When every handler decides from the state whether to continue,
    and continues at most once, the handlers a dispatch runs are always the
    first [j] registered ones for some [j], each once and in order: no
    handler is skipped, none runs twice, none runs before an earlier one. *)
Theorem handle_runs_a_prefix c :
  (∀ i h, middleware_ c !! i = Some h → invokes_at_most_once h) →
  ∀ w, ∃ j, j ≤ size c ∧
            log (handle (instrument c) w) = log w ++ seq 0 j.
Proof.
  intros Hall w.
  destruct (at_most_once_appends c 0 w Hall) as (j & _ & Hj & Hlog).
  exists j. split; [lia|]. unfold handle. rewrite Hlog, Nat.sub_0_r.
  reflexivity.
Qed.

(** X4. A property of the state that every registered handler keeps,
    provided its continuation keeps it, is kept by a dispatch, and by the
    run from any cursor: the chain does nothing to the state on its own. *)
Theorem execute_keeps_invariant c (I : @World Ext → Prop) :
  (∀ h, h ∈ middleware_ c → preserves I h) →
  ∀ index w, I w → I (execute c index w) ∧ I (handle c w).
Proof.
  intros Hall.
  assert (Hrun : ∀ index w, I w → I (execute c index w)).
  { intros index.
    remember (size c - index) as n eqn:Hn.
    revert index Hn. induction n as [|n IH]; intros index Hn w Hw.
    - rewrite execute_done by lia. exact Hw.
    - destruct (lookup_in_range c index ltac:(lia)) as [h Hh].
      rewrite (execute_step _ _ _ _ Hh).
      apply (Hall h); [eapply list_elem_of_lookup_2, Hh| |exact Hw].
      apply IH. lia. }
  intros index w Hw. split; [apply Hrun, Hw|apply (Hrun 0), Hw].
Qed.

(** X5. If every handler of a chain calls its continuation as the last
    thing it does, a handler registered behind them runs after all of
    them, on the state they leave, and with a continuation that does
    nothing. *)
Theorem use_runs_last c func :
  (∀ h, h ∈ middleware_ c → ∃ pre, tail_calls pre h) →
  ∀ w, handle (use c func) w = func (λ w', w') (handle c w).
Proof.
  intros Hall w. rewrite !handle_compose. simpl.
  revert w. induction (middleware_ c) as [|h ms IH]; intros w; simpl.
  - reflexivity.
  - destruct (Hall h) as [pre Hpre]; [left|].
    rewrite !Hpre. apply IH. intros h' Hin. apply Hall. right. exact Hin.
Qed.

Lemma count_occ_concat_replicate (m i : nat) (d : list nat) :
  count_occ Nat.eq_dec (concat (replicate m d)) i
  = m * count_occ Nat.eq_dec d i.
Proof.
  induction m as [|m IH]; simpl; [reflexivity|].
  rewrite count_occ_app, IH. reflexivity.
Qed.

(** What a run from cursor [k] appends when every handler invokes its
    continuation [m] times: no index before [k], and the index [i] of a
    handler behind the cursor [m ^ (i - k)] times. *)
Lemma reinvoking_suffix_appends c m k :
  (∀ i h, middleware_ c !! i = Some h →
          ∃ first then_, length then_ = m ∧ reinvokes first then_ h) →
  ∃ d, appends (execute (instrument c) k) d ∧
       (∀ i, i < k → count_occ Nat.eq_dec d i = 0) ∧
       (∀ i, k ≤ i → i < size c → count_occ Nat.eq_dec d i = m ^ (i - k)).
Proof.
  intros Hall.
  remember (size c - k) as n eqn:Hn.
  revert k Hn. induction n as [|n IH]; intros k Hn.
  - exists []. split; [|split; [reflexivity|intros i Hi1 Hi2; lia]].
    intros w. rewrite execute_done by (rewrite size_instrument; lia).
    rewrite app_nil_r. reflexivity.
  - destruct (lookup_in_range c k ltac:(lia)) as [h Hh].
    destruct (Hall k h Hh) as (first & then_ & Hlen & Hfirst & Hthen & Hshape).
    destruct (IH (S k) ltac:(lia)) as (d & Hd & Hbefore & Hcount).
    exists (k :: concat (replicate m d)). split; [|split].
    + intros w. rewrite (execute_observed _ _ _ _ Hh), Hshape.
      rewrite (interleave_appends _ d) by assumption.
      rewrite Hlen. simpl. rewrite <- app_assoc. reflexivity.
    + intros i Hi. simpl.
      destruct (Nat.eq_dec k i) as [->|Hne]; [lia|].
      rewrite count_occ_concat_replicate, Hbefore by lia. lia.
    + intros i Hi1 Hi2. simpl.
      destruct (Nat.eq_dec k i) as [->|Hne].
      * rewrite count_occ_concat_replicate, Hbefore by lia.
        rewrite Nat.sub_diag. simpl. lia.
      * rewrite count_occ_concat_replicate, Hcount by lia.
        replace (i - k) with (S (i - S k)) by lia. simpl. reflexivity.
Qed.

(** X6. When every handler invokes its continuation [m] times, one
    dispatch runs the handler at index [i] exactly [m ^ i] times: the work
    multiplies by [m] with every handler passed. *)
Theorem handle_reinvoking_counts c m :
  (∀ i h, middleware_ c !! i = Some h →
          ∃ first then_, length then_ = m ∧ reinvokes first then_ h) →
  ∃ d, (∀ w, log (handle (instrument c) w) = log w ++ d) ∧
       ∀ i, i < size c → count_occ Nat.eq_dec d i = m ^ i.
Proof.
  intros Hall.
  destruct (reinvoking_suffix_appends c m 0 Hall) as (d & Hd & _ & Hcount).
  exists d. split; [exact Hd|].
  intros i Hi. rewrite (Hcount i) by lia. rewrite Nat.sub_0_r. reflexivity.
Qed.

(** ** Shapes of the example handlers, continued *)

Lemma status_handler_at_most_once s :
  invokes_at_most_once (@status_handler Ext s).
Proof.
  exists (λ _, true), (set_status s), (λ _ w, w), (λ w, w).
  split; [intros w; reflexivity|]. split; [intros w0 w; reflexivity|].
  split; [intros w; reflexivity|]. intros next w. reflexivity.
Qed.

Lemma auth_check_at_most_once : invokes_at_most_once (@auth_check Ext).
Proof.
  exists (λ w, bool_decide (is_Some (req_headers (req w) !! "Auth"%string))),
         (λ w, w), (λ _ w, w), (λ w, w).
  split; [intros w; reflexivity|]. split; [intros w0 w; reflexivity|].
  split; [intros w; reflexivity|]. intros next w. unfold auth_check.
  destruct (req_headers (req w) !! "Auth"%string) as [v|] eqn:Hv.
  - rewrite bool_decide_eq_true_2 by (exists v; reflexivity). reflexivity.
  - rewrite bool_decide_eq_false_2; [reflexivity|].
    intros [v Hsome]. discriminate Hsome.
Qed.

Lemma status_handler_keeps_request s (r : Request) :
  preserves (λ w, req w = r) (@status_handler Ext s).
Proof. intros n Hn w Hw. apply Hn. exact Hw. Qed.

Lemma header_handler_keeps_request name value (r : Request) :
  preserves (λ w, req w = r) (@header_handler Ext name value).
Proof. intros n Hn w Hw. apply Hn. exact Hw. Qed.

Lemma pass_handler_keeps_request (r : Request) :
  preserves (λ w, req w = r) (@pass_handler Ext).
Proof. intros n Hn w Hw. apply Hn. exact Hw. Qed.

Lemma status_handler_tail_calls s :
  tail_calls (set_status s) (@status_handler Ext s).
Proof. intros next w. reflexivity. Qed.

Lemma header_handler_tail_calls name value :
  tail_calls (set_header name value) (@header_handler Ext name value).
Proof. intros next w. reflexivity. Qed.

End Composition.

(** * The model on concrete chains *)

(** Scenario of the specification: [setHeader("X","1"), setStatus(404),
    appendLog] on a fresh pair gives header X = 1, status 404 and three
    log entries in order. *)
Example scenario_three_handlers :
  let w := handle (instrument chain_three) fresh_world in
  res_headers (res w) !! "X"%string = Some "1"%string ∧
  res_status (res w) = 404%Z ∧
  log w = [0; 1; 2].
Proof. vm_compute. repeat split. Qed.

(** Scenario of the specification: [authCheck, setStatus(200)] on a request
    without the header: only [authCheck] runs. *)
Example scenario_auth_rejects :
  let w := handle (instrument chain_auth) fresh_world in
  res w = Response_default ∧ log w = [0].
Proof. vm_compute. repeat split. Qed.

(** Wrap semantics: the first handler sets a header, calls its
    continuation and then reads the status; the second handler sets the
    status to 404. The code after the call sees the 404. *)
Example scenario_wrap :
  let w := handle chain_report fresh_world in
  res_headers (res w) !! "A"%string = Some "1"%string ∧
  res_status (res w) = 404%Z ∧
  res_body (res w) = "missing"%string.
Proof. vm_compute. repeat split. Qed.

(** Calling the continuation twice runs the two handlers behind it twice. *)
Example scenario_twice :
  log (handle (instrument chain_twice) fresh_world) = [0; 1; 2; 1; 2].
Proof. vm_compute. reflexivity. Qed.

(** The theorems above, applied to these chains. *)

Lemma chain_three_once i h :
  middleware_ chain_three !! i = Some h → invokes_once h.
Proof.
  destruct i as [|[|[|i]]]; simpl; intros Hh; try discriminate;
    injection Hh as <-.
  - apply header_handler_once.
  - apply status_handler_once.
  - apply pass_handler_once.
Qed.

Lemma handle_runs_all_in_order_witness :
  log (handle (instrument chain_three) fresh_world)
  = log fresh_world ++ seq 0 (size chain_three).
Proof.
  apply (handle_runs_all_in_order chain_three).
  intros i h Hh. exact (chain_three_once i h Hh).
Defined.

(** A header handler, the check of the header [Auth] and a status
    handler, on a request without the header: the check is where this
    dispatch stops. *)
Lemma chain_guarded_stops : stops_at chain_guarded 1 0 fresh_world.
Proof.
  apply (stops_later chain_guarded 1 0 (header_handler "X" "1") fresh_world
           (set_header "X" "1" (record 0 fresh_world)) (λ w, w)).
  - lia.
  - reflexivity.
  - split; [reflexivity|]. split; [intros w; reflexivity|].
    intros next. reflexivity.
  - apply (stops_here chain_guarded 1 auth_check); [reflexivity|].
    exists (record 1 (set_header "X" "1" (record 0 fresh_world))).
    split; [reflexivity|]. intros next. reflexivity.
Qed.

Lemma handle_short_circuit_witness :
  log (handle (instrument chain_guarded) fresh_world)
  = log fresh_world ++ seq 0 2 ∧
  ∀ c', take 2 (middleware_ c') = take 2 (middleware_ chain_guarded) →
        handle (instrument c') fresh_world
        = handle (instrument chain_guarded) fresh_world.
Proof.
  apply (handle_short_circuit chain_guarded 1 fresh_world).
  exact chain_guarded_stops.
Defined.

(** The same chain on a request with the header runs all three handlers:
    the check declines on some states only. *)
Example scenario_guarded_passes :
  log (handle (instrument chain_guarded) authorized_world) = [0; 1; 2] ∧
  log (handle (instrument chain_guarded) fresh_world) = [0; 1].
Proof. vm_compute. split; reflexivity. Qed.

(** A handler that never continues, between two that do. *)
Example scenario_reject :
  let w := handle (instrument chain_rejecting) fresh_world in
  res_status (res w) = 401%Z ∧ log w = [0; 1].
Proof. vm_compute. split; reflexivity. Qed.

Lemma continuation_wraps_downstream_witness :
  middleware_ chain_report !! 0 = Some report_handler ∧
  execute chain_report 0 fresh_world
  = report_after fresh_world
      (execute chain_report 1 (set_header "A" "1" fresh_world)) ∧
  execute chain_report 1 (set_header "A" "1" fresh_world)
  = handle {| middleware_ := drop 1 (middleware_ chain_report) |}
      (set_header "A" "1" fresh_world).
Proof.
  split; [reflexivity|].
  apply (continuation_wraps_downstream chain_report 0 report_handler).
  - reflexivity.
  - apply report_handler_wraps.
Defined.

Lemma handle_empty_chain_witness :
  size (@MiddlewareChain_new unit) = 0 ∧
  handle MiddlewareChain_new fresh_world = fresh_world ∧
  req (handle MiddlewareChain_new fresh_world) = req fresh_world ∧
  res (handle MiddlewareChain_new fresh_world) = res fresh_world.
Proof.
  split; [reflexivity|].
  apply (handle_empty_chain MiddlewareChain_new fresh_world). reflexivity.
Defined.

Lemma chain_twice_downstream_once j hj :
  0 < j → middleware_ chain_twice !! j = Some hj → invokes_once hj.
Proof.
  destruct j as [|[|[|j]]]; simpl; intros Hj Hh; try discriminate;
    try lia; injection Hh as <-.
  - apply pass_handler_once.
  - apply status_handler_once.
Qed.

Lemma continuation_reinvoked_witness :
  middleware_ chain_twice !! 0 = Some twice_handler ∧
  (∀ w, execute chain_twice 0 w
        = execute chain_twice 1 (execute chain_twice 1 w)) ∧
  execute chain_twice 1 = compose (drop 1 (middleware_ chain_twice)) ∧
  log (execute (instrument chain_twice) 0 fresh_world) = [0; 1; 2; 1; 2].
Proof.
  split; [reflexivity|].
  destruct (continuation_reinvoked chain_twice 0 twice_handler
              (λ w, w) [λ _ w, w; λ _ w, w] eq_refl twice_handler_reinvokes)
    as (Hrun & Hsame & Hlog).
  split; [exact Hrun|]. split; [exact Hsame|].
  apply (Hlog chain_twice_downstream_once).
Defined.

Lemma chain_three_oblivious h :
  h ∈ middleware_ chain_three → oblivious h.
Proof.
  simpl. intros Hin.
  apply elem_of_cons in Hin as [->|Hin]; [apply header_handler_oblivious|].
  apply elem_of_cons in Hin as [->|Hin]; [apply status_handler_oblivious|].
  apply elem_of_cons in Hin as [->|Hin]; [apply pass_handler_oblivious|].
  apply elem_of_nil in Hin. contradiction.
Qed.

Lemma dispatch_repeatable_witness :
  (∀ w, handle chain_three w = execute chain_three 0 w) ∧
  handle chain_three = compose (middleware_ chain_three) ∧
  repeatable chain_three.
Proof.
  destruct (dispatch_repeatable chain_three) as (Hstart & Hfront & Hrep).
  split; [exact Hstart|]. split; [exact Hfront|].
  apply Hrep. exact chain_three_oblivious.
Defined.

(** A handler that keeps a memory of its own makes the second dispatch
    differ from the first, both on a fresh pair: the first runs both
    handlers and sets the status, the second stops at the first handler. *)
Lemma stateful_handler_interferes :
  let first := handle (instrument chain_latch) (fresh false) in
  let second :=
    handle (instrument chain_latch)
      {| req := Request_default; res := Response_default;
         log := log first; ext := ext first |} in
  (res_status (res first) = 404%Z ∧ log first = [0; 1]) ∧
  (res_status (res second) = 200%Z ∧ log second = [0; 1; 0]) ∧
  ¬ repeatable chain_latch.
Proof.
  split; [vm_compute; split; reflexivity|].
  split; [vm_compute; split; reflexivity|].
  intros Hrep.
  destruct (Hrep Request_default Response_default
                 Request_default Response_default [] false)
    as (_ & Hres & _).
  vm_compute in Hres. discriminate Hres.
Qed.

(** Three handlers that each call their continuation twice: the second
    runs twice and the third four times. *)
Example scenario_doubling :
  log (handle (instrument chain_doubling) fresh_world) = [0; 1; 2; 2; 1; 2; 2].
Proof. vm_compute. reflexivity. Qed.

Lemma handle_pre_forward_post_backward_witness :
  handle chain_report fresh_world
  = report_after fresh_world
      (set_status 404 (set_header "A" "1" fresh_world)).
Proof.
  apply (handle_pre_forward_post_backward chain_report
           [(set_header "A" "1", report_after fresh_world);
            (set_status 404, λ w, w)]).
  repeat constructor.
Defined.

Lemma chain_auth_at_most_once i h :
  middleware_ chain_auth !! i = Some h → invokes_at_most_once h.
Proof.
  destruct i as [|[|i]]; simpl; intros Hh; try discriminate;
    injection Hh as <-.
  - apply auth_check_at_most_once.
  - apply status_handler_at_most_once.
Qed.

Lemma handle_runs_a_prefix_witness :
  ∃ j, j ≤ size chain_auth ∧
       log (handle (instrument chain_auth) fresh_world)
       = log fresh_world ++ seq 0 j.
Proof.
  apply (handle_runs_a_prefix chain_auth). exact chain_auth_at_most_once.
Defined.

Lemma chain_three_keeps_request h :
  h ∈ middleware_ chain_three →
  preserves (λ w, req w = Request_default) h.
Proof.
  simpl. intros Hin.
  apply elem_of_cons in Hin as [->|Hin]; [apply header_handler_keeps_request|].
  apply elem_of_cons in Hin as [->|Hin]; [apply status_handler_keeps_request|].
  apply elem_of_cons in Hin as [->|Hin]; [apply pass_handler_keeps_request|].
  apply elem_of_nil in Hin. contradiction.
Qed.

Lemma execute_keeps_invariant_witness :
  req (execute chain_three 1 fresh_world) = Request_default ∧
  req (handle chain_three fresh_world) = Request_default.
Proof.
  apply (execute_keeps_invariant chain_three (λ w, req w = Request_default)
           chain_three_keeps_request 1 fresh_world).
  reflexivity.
Defined.

Lemma chain_two_tail_calls h :
  h ∈ middleware_ chain_two → ∃ pre, tail_calls pre h.
Proof.
  simpl. intros Hin.
  apply elem_of_cons in Hin as [->|Hin];
    [eexists; apply header_handler_tail_calls|].
  apply elem_of_cons in Hin as [->|Hin];
    [eexists; apply status_handler_tail_calls|].
  apply elem_of_nil in Hin. contradiction.
Qed.

Lemma use_runs_last_witness :
  handle (use chain_two (reject_handler 401)) fresh_world
  = reject_handler 401 (λ w', w') (handle chain_two fresh_world).
Proof.
  apply (use_runs_last chain_two (reject_handler 401) chain_two_tail_calls).
Defined.

Lemma chain_doubling_reinvokes i h :
  middleware_ chain_doubling !! i = Some h →
  ∃ first then_, length then_ = 2 ∧ reinvokes first then_ h.
Proof.
  destruct i as [|[|[|i]]]; simpl; intros Hh; try discriminate;
    injection Hh as <-;
    exists (λ w, w), [λ _ w, w; λ _ w, w];
    (split; [reflexivity|apply twice_handler_reinvokes]).
Qed.

Lemma handle_reinvoking_counts_witness :
  ∃ d, (∀ w, log (handle (instrument chain_doubling) w) = log w ++ d) ∧
       ∀ i, i < size chain_doubling → count_occ Nat.eq_dec d i = 2 ^ i.
Proof.
  apply (handle_reinvoking_counts chain_doubling 2).
  exact chain_doubling_reinvokes.
Defined.

Lemma pchain_three_returns ph :
  ph ∈ pchain_three → returns_with_next ph.
Proof.
  unfold pchain_three. intros Hin.
  apply elem_of_cons in Hin as [->|Hin]; [apply twice_phandler_returns|].
  apply elem_of_cons in Hin as [->|Hin]; [apply auth_pcheck_returns|].
  apply elem_of_cons in Hin as [->|Hin]; [apply status_phandler_returns|].
  apply elem_of_nil in Hin. contradiction.
Qed.

Lemma dispatch_terminates_witness :
  (∀ index w, ∃ w', ∀ fuel, length pchain_three - index < fuel →
                            execute_fuel fuel pchain_three index w = Some w') ∧
  (∀ w, ∃ w', ∀ fuel, length pchain_three < fuel →
                      handle_fuel fuel pchain_three w = Some w').
Proof.
  apply (dispatch_terminates pchain_three). exact pchain_three_returns.
Defined.

(** The calls of [execute] nest as deep as the handlers continue: on a
    request with the header the three handlers and the last continuation
    need four units of fuel, and three are not enough. *)
Example scenario_fuel :
  handle_fuel 3 pchain_three authorized_world = None ∧
  handle_fuel 4 pchain_three authorized_world
  = Some (set_status 404 authorized_world).
Proof. vm_compute. split; reflexivity. Qed.
